(** * TokenBucketAlgorithm.cpp: the [TokenBucket] class

    A shallow embedding of [class TokenBucket] and of the thread that runs
    [TokenBucket::refill].  Every access to [counter_] and [exit_] in the
    source happens while [counter_mutex_] is held, so one critical section is
    one atomic step here, and the program is the interleaving of these steps:
    calls of [request] by any caller, the steps of the refiller thread, and
    the locked block of the destructor. *)

From Stdlib Require Import String Ascii ZArith List Bool Lia.
Import ListNotations.
Local Open Scope Z_scope.

(** ** The type [int]

    [max_counter_] and [counter_] are [int]: 32 bits, two's complement. *)

Module Int.

Definition min : Z := - 2 ^ 31.
Definition max : Z := 2 ^ 31 - 1.

Definition in_range (z : Z) : Prop := min <= z <= max.

(** [--x] on an [int] [x]: overflow of a signed [int] is undefined in
    C++, so there is no value when [x - 1] is below the least [int]. *)
Definition pred (x : Z) : option Z :=
  if x - 1 <? min then None else Some (x - 1).

End Int.

(** ** The object *)

(** The data members of [TokenBucket] that hold data.  [counter_mutex_] and
    [condition_variable_] are the synchronisation that makes each step
    below atomic; the thread behind [refiller_] is [thread] below. *)
Record TokenBucket : Type := mkTokenBucket {
  max_counter_ : Z;
  counter_ : Z;
  exit_ : bool
}.

Definition set_counter_ (c : Z) (tb : TokenBucket) : TokenBucket :=
  mkTokenBucket (max_counter_ tb) c (exit_ tb).

Definition set_exit_ (b : bool) (tb : TokenBucket) : TokenBucket :=
  mkTokenBucket (max_counter_ tb) (counter_ tb) b.

(** [bool request()]: the result, and the object after the call; [None]
    where the decrement overflows. *)
Definition request (tb : TokenBucket) : option (bool * TokenBucket) :=
  if negb (counter_ tb =? 0) then
    match Int.pred (counter_ tb) with
    | Some c => Some (true, set_counter_ c tb)
    | None => None
    end
  else Some (false, tb).

(** ** The refiller thread *)

(** What ends one wait on the condition variable inside [wait_for]: the
    period has elapsed, or the thread was notified or woke spuriously. *)
Inductive cv_status : Type := timeout | no_timeout.

(** Where the thread running [refill] stands whenever it does not hold the
    lock: about to lock at the top of [while (true)], blocked inside
    [wait_for], or returned. *)
Inductive location : Type := LoopTop | InWaitFor | Returned.

(** The thread: the argument [refill] was started with, and its location. *)
Record thread : Type := mkThread {
  refillFrequencySeconds : Z;
  at_ : location
}.

Definition goto (l : location) (t : thread) : thread :=
  mkThread (refillFrequencySeconds t) l.

(** One step of [refill], from taking the lock to giving it up again.  The
    third component is the number printed by the "Refill of" line.

    [wait_for (lock, d, pred)] is
    [while (!pred ()) if (wait_until (lock, t) == timeout) return pred (); return true;]
    and every [wait_until] gives the lock up while it blocks.  From
    [LoopTop]: [exit_] set returns; otherwise [pred ()] is false and the
    thread blocks.  From [InWaitFor], woken with the lock held again:
    [exit_] set makes [wait_for] return true and [refill] return; not set,
    a timeout makes [wait_for] return false, so [counter_ = max_counter_]
    runs, the lock is given up, the line is printed and the loop starts
    over; any other wake-up blocks again. *)
Definition refill (st : cv_status) (tb : TokenBucket) (t : thread)
  : TokenBucket * thread * option Z :=
  match at_ t with
  | LoopTop =>
      if exit_ tb then (tb, goto Returned t, None)
      else (tb, goto InWaitFor t, None)
  | InWaitFor =>
      if exit_ tb then (tb, goto Returned t, None)
      else
        match st with
        | timeout =>
            (set_counter_ (max_counter_ tb) tb, goto LoopTop t,
             Some (max_counter_ tb))
        | no_timeout => (tb, goto InWaitFor t, None)
        end
  | Returned => (tb, t, None)
  end.

(** ** The object together with its thread *)

Record system : Type := mkSystem {
  bucket : TokenBucket;
  refiller_ : thread
}.

(** The outcome of a constructor call: an object, or an exception. *)
Inductive construction : Type :=
| Constructed (s : system)
| Rejected.

(** [TokenBucket(int size, int refillFrequencySeconds)]: the member
    initialisers, [exit_ = false], and the thread started on [refill].
    There is no check of the arguments and no [throw].  Members are
    initialised in the order of their declaration, which starts the thread
    before [exit_] is initialised; the initialisation is taken here as done
    before the thread's first step. *)
Definition TokenBucket_new (size refillFrequencySeconds : Z) : construction :=
  Constructed
    (mkSystem (mkTokenBucket size size false)
              (mkThread refillFrequencySeconds LoopTop)).

(** The locked block of [~TokenBucket()]. *)
Definition destroy (tb : TokenBucket) : TokenBucket := set_exit_ true tb.

(** What the program does next. *)
Inductive event : Type :=
| Request                     (* some caller runs [request] *)
| Refiller (st : cv_status)   (* the refiller thread takes its next step *)
| Destroy.                    (* the destructor sets [exit_] and notifies *)

(** What a step shows: the result of [request], a printed refill, nothing. *)
Inductive obs : Type :=
| Result (b : bool)
| Refilled (n : Z)
| Silent.

Definition step (e : event) (s : system) : option (obs * system) :=
  match e with
  | Request =>
      match request (bucket s) with
      | Some (b, tb) => Some (Result b, mkSystem tb (refiller_ s))
      | None => None
      end
  | Refiller st =>
      match refill st (bucket s) (refiller_ s) with
      | (tb, t, Some n) => Some (Refilled n, mkSystem tb t)
      | (tb, t, None) => Some (Silent, mkSystem tb t)
      end
  | Destroy => Some (Silent, mkSystem (destroy (bucket s)) (refiller_ s))
  end.

Fixpoint run (es : list event) (s : system) : option (list obs * system) :=
  match es with
  | [] => Some ([], s)
  | e :: es' =>
      match step e s with
      | Some (o, s1) =>
          match run es' s1 with
          | Some (os, s2) => Some (o :: os, s2)
          | None => None
          end
      | None => None
      end
  end.

(** [k] calls of [request] in a row, nothing in between. *)
Fixpoint requests (k : nat) (tb : TokenBucket) : option (list bool * TokenBucket) :=
  match k with
  | O => Some ([], tb)
  | S k' =>
      match request tb with
      | Some (b, tb1) =>
          match requests k' tb1 with
          | Some (bs, tb2) => Some (b :: bs, tb2)
          | None => None
          end
      | None => None
      end
  end.

(** The calls of [request] among the events. *)
Definition is_request (e : event) : bool :=
  match e with
  | Request => true
  | _ => false
  end.

Definition calls (es : list event) : nat := length (filter is_request es).

(** The calls that were granted. *)
Definition granted (bs : list bool) : nat := count_occ bool_dec bs true.

(** The data-model invariant of the token count. *)
Definition tokens_ok (tb : TokenBucket) : Prop :=
  0 <= counter_ tb <= max_counter_ tb.

(** ** Counting what a run shows *)

Definition is_grant (o : obs) : bool :=
  match o with
  | Result true => true
  | _ => false
  end.

Definition is_refill (o : obs) : bool :=
  match o with
  | Refilled _ => true
  | _ => false
  end.

(** The granted calls and the refills among the observations. *)
Definition grants (os : list obs) : nat := length (filter is_grant os).
Definition refills (os : list obs) : nat := length (filter is_refill os).

(** The results of the calls, in order. *)
Definition results (os : list obs) : list bool :=
  flat_map (fun o => match o with Result b => [b] | _ => [] end) os.

(** The waits of the refiller that the events end by timeout. *)
Definition is_timeout (e : event) : bool :=
  match e with
  | Refiller timeout => true
  | _ => false
  end.

Definition timeouts (es : list event) : nat := length (filter is_timeout es).

(** ** [main] *)

(** What happens next while [main] is in its loop: [std::getline] returns,
    leaving a value in [request], or the refiller thread takes a step. *)
Inductive action : Type :=
| GetLine (request : string)
| Thread (st : cv_status).

(** [std::endl] writes a newline. *)
Definition endl : string := String "010" EmptyString.

(** What [main] writes before it constructs the bucket. *)
Definition header : string :=
  ("Please enter token bucket size: " ++
   "Please enter token bucket refill frequency (seconds): ")%string.

(** What [main] writes at the top of each iteration. *)
Definition prompt : string :=
  ("Please enter request: " ++ endl ++ ">")%string.

(** What [main] writes after a call of [request]. *)
Definition request_line (req : string) (result : bool) : string :=
  ("Request " ++ req ++ " " ++
   (if result then "succeeded" else "dropped") ++ endl)%string.

(** Where [main] stands: what it has written to [std::cout], the requests
    it has answered with their results, the bucket and its thread, and
    whether the loop was left by [break]. *)
Record outcome : Type := mkOutcome {
  cout : string;
  answers : list (string * bool);
  sys : system;
  quit : bool
}.

(** The [while (true)] loop of [main] over the actions that arrive.  The
    prompt of an iteration is written before [std::getline] is entered, so
    it is there whether a line arrives or not; steps of the thread in
    between write nothing to [main]'s output.  A line equal to ["q"]
    breaks; any other is one call of [request] and one line of output.
    When the actions end without ["q"], [main] is blocked in
    [std::getline]. *)
Fixpoint main_loop (acts : list action) (s : system) : option outcome :=
  match acts with
  | [] => Some (mkOutcome prompt [] s false)
  | Thread st :: acts' =>
      let '(tb, t, _) := refill st (bucket s) (refiller_ s) in
      main_loop acts' (mkSystem tb t)
  | GetLine req :: acts' =>
      if String.eqb req "q" then Some (mkOutcome prompt [] s true)
      else
        match request (bucket s) with
        | Some (result, tb) =>
            match main_loop acts' (mkSystem tb (refiller_ s)) with
            | Some r =>
                Some (mkOutcome
                        (prompt ++ request_line req result ++ cout r)%string
                        ((req, result) :: answers r) (sys r) (quit r))
            | None => None
            end
        | None => None
        end
  end.

(** Steps of the thread in a row. *)
Fixpoint thread_steps (sts : list cv_status) (s : system) : system :=
  match sts with
  | [] => s
  | st :: sts' =>
      let '(tb, t, _) := refill st (bucket s) (refiller_ s) in
      thread_steps sts' (mkSystem tb t)
  end.

(** [~TokenBucket()] as a whole: the locked block, then [notify_one] and
    [join], which lets the thread take the step [st] that the flag and the
    notification bring about. *)
Definition destructor (st : cv_status) (s : system) : system :=
  let '(tb, t, _) := refill st (destroy (bucket s)) (refiller_ s) in
  mkSystem tb t.

(** [main], given the values the two extractions leave in
    [tokenBucketSize] and [tokenBucketRefillFrequencySeconds], the actions
    that arrive during the loop, the steps [late] the thread takes between
    the [break] and the destructor, and the step [join] it takes after the
    destructor's notification.  When the loop was left, the bucket goes
    out of scope and is destroyed. *)
Definition main (tokenBucketSize tokenBucketRefillFrequencySeconds : Z)
    (acts : list action) (late : list cv_status) (join : cv_status)
  : option outcome :=
  match TokenBucket_new tokenBucketSize tokenBucketRefillFrequencySeconds with
  | Constructed s =>
      match main_loop acts s with
      | Some r =>
          let s' := if quit r
                    then destructor join (thread_steps late (sys r))
                    else sys r in
          Some (mkOutcome (header ++ cout r)%string (answers r) s' (quit r))
      | None => None
      end
  | Rejected => None
  end.

(** The values [std::getline] leaves in [request], in order. *)
Definition lines (acts : list action) : list string :=
  flat_map (fun a => match a with GetLine req => [req] | Thread _ => [] end) acts.

(** The events of the bucket behind the actions of a loop that does not
    break. *)
Definition events_of (acts : list action) : list event :=
  map (fun a => match a with GetLine _ => Request | Thread st => Refiller st end)
      acts.

(** What [main] writes for the requests it has answered. *)
Fixpoint written (ans : list (string * bool)) : string :=
  match ans with
  | [] => prompt
  | (req, result) :: ans' =>
      (prompt ++ request_line req result ++ written ans')%string
  end.

(** Equality of actions is decidable. *)
Definition action_eq_dec (a b : action) : {a = b} + {a <> b}.
Proof.
  decide equality; [apply string_dec | decide equality].
Defined.

(** ** Basic facts *)

Lemma Int_pred_some (x : Z) : Int.min < x -> Int.pred x = Some (x - 1).
Proof.
  intros H. unfold Int.pred.
  destruct (Z.ltb_spec (x - 1) Int.min); [lia | reflexivity].
Qed.

Lemma Int_pred_min : Int.pred Int.min = None.
Proof. reflexivity. Qed.

Lemma Int_min_neg : Int.min < 0.
Proof. reflexivity. Qed.

(** [request] by cases on the count. *)
Lemma request_zero (tb : TokenBucket) :
  counter_ tb = 0 -> request tb = Some (false, tb).
Proof. intros H. unfold request. rewrite H. reflexivity. Qed.

Lemma request_nonzero (tb : TokenBucket) :
  counter_ tb <> 0 -> Int.min < counter_ tb ->
  request tb = Some (true, set_counter_ (counter_ tb - 1) tb).
Proof.
  intros Hnz Hmin. unfold request.
  destruct (Z.eqb_spec (counter_ tb) 0) as [E | _]; [contradiction |].
  simpl. rewrite Int_pred_some by exact Hmin. reflexivity.
Qed.

Lemma request_positive (tb : TokenBucket) :
  0 < counter_ tb ->
  request tb = Some (true, set_counter_ (counter_ tb - 1) tb).
Proof.
  intros H. apply request_nonzero; [lia |].
  pose proof Int_min_neg. lia.
Qed.

(** ** The decision operation *)

(** C1. In a state with [max_counter_ > 0] and
    [0 <= counter_ <= max_counter_], [request] returns true and takes
    exactly one token when [counter_ > 0], returns false and leaves the
    object as it is when [counter_ = 0], and in either case returns a
    boolean: there is no undefined case. *)
Theorem request_decides (tb : TokenBucket) :
  0 < max_counter_ tb -> 0 <= counter_ tb <= max_counter_ tb ->
  (0 < counter_ tb ->
     request tb = Some (true, set_counter_ (counter_ tb - 1) tb)) /\
  (counter_ tb = 0 -> request tb = Some (false, tb)) /\
  (exists b tb', request tb = Some (b, tb')).
Proof.
  intros Hcap [Hlo Hhi]. split; [| split].
  - apply request_positive.
  - apply request_zero.
  - destruct (Z.eq_dec (counter_ tb) 0) as [E | NE].
    + exists false, tb. now apply request_zero.
    + exists true, (set_counter_ (counter_ tb - 1) tb).
      apply request_positive. lia.
Qed.

Lemma request_decides_witness :
  request (mkTokenBucket 3 2 false) = Some (true, mkTokenBucket 3 1 false) /\
  request (mkTokenBucket 3 0 false) = Some (false, mkTokenBucket 3 0 false).
Proof.
  split.
  - apply (request_decides (mkTokenBucket 3 2 false)); simpl; lia.
  - apply (request_decides (mkTokenBucket 3 0 false)); simpl; lia.
Defined.

(** ** Calls in a row *)

Lemma set_counter_same (tb : TokenBucket) : set_counter_ (counter_ tb) tb = tb.
Proof. destruct tb; reflexivity. Qed.

(** As long as the count neither reaches zero nor the least [int], every
    call is granted. *)
Lemma requests_all_true (k : nat) : forall tb : TokenBucket,
  Z.of_nat k <= counter_ tb \/
  (counter_ tb < 0 /\ Int.min <= counter_ tb - Z.of_nat k) ->
  requests k tb =
  Some (repeat true k, set_counter_ (counter_ tb - Z.of_nat k) tb).
Proof.
  induction k as [| k IH]; intros tb H.
  - simpl. rewrite Z.sub_0_r, set_counter_same. reflexivity.
  - pose proof Int_min_neg as Hneg.
    cbn [requests]. rewrite request_nonzero by lia.
    rewrite IH by (simpl; lia).
    cbn [repeat]. do 2 f_equal.
    unfold set_counter_; simpl. f_equal. lia.
Qed.

Lemma requests_all_false (k : nat) (tb : TokenBucket) :
  counter_ tb = 0 -> requests k tb = Some (repeat false k, tb).
Proof.
  intros H. induction k as [| k IH]; [reflexivity |].
  cbn [requests]. rewrite request_zero by exact H. rewrite IH. reflexivity.
Qed.

Lemma requests_app (a b : nat) (tb : TokenBucket) :
  requests (a + b) tb =
  match requests a tb with
  | Some (bs, tb1) =>
      match requests b tb1 with
      | Some (bs', tb2) => Some (bs ++ bs', tb2)
      | None => None
      end
  | None => None
  end.
Proof.
  revert tb. induction a as [| a IH]; intros tb.
  - simpl. destruct (requests b tb) as [[bs' tb2] |]; reflexivity.
  - cbn [Nat.add requests]. destruct (request tb) as [[r tb1] |]; [| reflexivity].
    rewrite IH. destruct (requests a tb1) as [[bs tb2] |]; [| reflexivity].
    destruct (requests b tb2) as [[bs' tb3] |]; reflexivity.
Qed.

(** From [c >= 0] tokens: [c] grants, then refusals only. *)
Lemma requests_drain (k : nat) (tb : TokenBucket) :
  0 <= counter_ tb ->
  let c := Z.to_nat (counter_ tb) in
  requests k tb =
  Some (repeat true (Nat.min k c) ++ repeat false (k - c),
        set_counter_ (counter_ tb - Z.of_nat (Nat.min k c)) tb).
Proof.
  intros Hc c.
  replace k with (Nat.min k c + (k - c))%nat at 1 by lia.
  rewrite requests_app, requests_all_true by lia.
  destruct (Nat.le_gt_cases k c) as [Hle | Hgt].
  - replace (k - c)%nat with 0%nat by lia. reflexivity.
  - rewrite requests_all_false; [reflexivity | simpl; lia].
Qed.

Lemma granted_repeat_true (n : nat) : granted (repeat true n) = n.
Proof.
  unfold granted. induction n as [| n IH]; [reflexivity |].
  simpl. now rewrite IH.
Qed.

Lemma granted_repeat_false (n : nat) : granted (repeat false n) = 0%nat.
Proof.
  unfold granted. induction n as [| n IH]; [reflexivity |].
  simpl. exact IH.
Qed.

Lemma granted_app (xs ys : list bool) :
  granted (xs ++ ys) = (granted xs + granted ys)%nat.
Proof. unfold granted. apply count_occ_app. Qed.

(** ** Construction *)

Lemma TokenBucket_new_inv (size p : Z) (s : system) :
  TokenBucket_new size p = Constructed s ->
  s = mkSystem (mkTokenBucket size size false) (mkThread p LoopTop).
Proof. unfold TokenBucket_new. intros H. now inversion H. Qed.

(** C2. From a bucket constructed with capacity [n > 0], any number [k] of
    calls of [request] in a row returns [k] booleans of which at most [n]
    are true; the first [n] calls return true and call [n + 1] returns
    false. *)
Theorem capacity_bound (n p : Z) (s : system) :
  0 < n -> TokenBucket_new n p = Constructed s ->
  (forall k : nat, exists bs tb',
      requests k (bucket s) = Some (bs, tb') /\
      length bs = k /\ Z.of_nat (granted bs) <= n) /\
  (exists tb',
      requests (S (Z.to_nat n)) (bucket s) =
      Some (repeat true (Z.to_nat n) ++ [false], tb')).
Proof.
  intros Hn Hnew. apply TokenBucket_new_inv in Hnew. subst s. cbn [bucket].
  split.
  - intros k. eexists _, _. split; [| split].
    + apply requests_drain. simpl. lia.
    + simpl. rewrite length_app, !repeat_length. lia.
    + simpl. rewrite granted_app, granted_repeat_true, granted_repeat_false.
      lia.
  - eexists. rewrite requests_drain by (simpl; lia). simpl counter_.
    replace (Nat.min (S (Z.to_nat n)) (Z.to_nat n)) with (Z.to_nat n) by lia.
    replace (S (Z.to_nat n) - Z.to_nat n)%nat with 1%nat by lia.
    reflexivity.
Qed.

Lemma capacity_bound_witness :
  exists tb',
    requests 4 (mkTokenBucket 3 3 false) = Some ([true; true; true; false], tb').
Proof.
  exact (proj2 (capacity_bound 3 1
                  (mkSystem (mkTokenBucket 3 3 false) (mkThread 1 LoopTop))
                  ltac:(lia) eq_refl)).
Defined.

(** The constructor has no validation: a size and a period that are not
    positive are taken as they are. *)
Lemma construction_not_rejected :
  ~ (forall size p : Z,
        Int.in_range size -> Int.in_range p -> size <= 0 \/ p <= 0 ->
        TokenBucket_new size p = Rejected).
Proof.
  intros H.
  assert (R : Int.in_range 0) by (unfold Int.in_range, Int.min, Int.max; lia).
  specialize (H 0 0 R R (or_introl (Z.le_refl 0))).
  discriminate H.
Qed.

(** C3, as the code has it. Construction never fails: for every size and
    period, positive or not, the constructor returns an object whose
    capacity and token count are the size, whose stop flag is clear, and
    whose refiller thread was started with the period. *)
Theorem construction_total (size p : Z) :
  exists s,
    TokenBucket_new size p = Constructed s /\
    max_counter_ (bucket s) = size /\
    counter_ (bucket s) = size /\
    exit_ (bucket s) = false /\
    refillFrequencySeconds (refiller_ s) = p /\
    at_ (refiller_ s) = LoopTop.
Proof. eexists. split; [reflexivity |]. simpl. repeat split. Qed.

(** ** The refill step *)

(** C5. A step of the refiller that ends a wait by timeout with [exit_]
    clear sets [counter_] to [max_counter_], whatever [counter_] was,
    changes nothing else, and prints the capacity. *)
Theorem refill_resets (tb : TokenBucket) (t : thread) :
  exit_ tb = false -> at_ t = InWaitFor ->
  refill timeout tb t =
    (set_counter_ (max_counter_ tb) tb, goto LoopTop t, Some (max_counter_ tb)) /\
  counter_ (fst (fst (refill timeout tb t))) = max_counter_ tb.
Proof.
  intros He Ha. unfold refill. rewrite Ha, He. split; reflexivity.
Qed.

Lemma refill_resets_witness :
  refill timeout (mkTokenBucket 5 2 false) (mkThread 1 InWaitFor) =
    (mkTokenBucket 5 5 false, mkThread 1 LoopTop, Some 5) /\
  counter_ (fst (fst (refill timeout (mkTokenBucket 5 2 false)
                        (mkThread 1 InWaitFor)))) = 5.
Proof.
  exact (refill_resets (mkTokenBucket 5 2 false) (mkThread 1 InWaitFor)
           eq_refl eq_refl).
Defined.

(** A step of the refiller writes [counter_] only when it prints, and then
    it writes the capacity. *)
Lemma refill_cases (st : cv_status) (tb : TokenBucket) (t : thread) :
  (refill st tb t =
     (set_counter_ (max_counter_ tb) tb, goto LoopTop t, Some (max_counter_ tb))
   /\ exit_ tb = false) \/
  (exists l, refill st tb t = (tb, goto l t, None)).
Proof.
  unfold refill. destruct t as [p l]; simpl.
  destruct l, (exit_ tb) eqn:He, st; simpl;
    try (right; eexists; unfold goto; simpl; reflexivity);
    left; split; reflexivity.
Qed.

(** ** Runs *)

Lemma run_app (a b : list event) : forall s : system,
  run (a ++ b) s =
  match run a s with
  | Some (os, s1) =>
      match run b s1 with
      | Some (os', s2) => Some (os ++ os', s2)
      | None => None
      end
  | None => None
  end.
Proof.
  induction a as [| e a IH]; intros s.
  - simpl. destruct (run b s) as [[os' s2] |]; reflexivity.
  - cbn [app run]. destruct (step e s) as [[o s1] |]; [| reflexivity].
    rewrite IH. destruct (run a s1) as [[os s2] |]; [| reflexivity].
    destruct (run b s2) as [[os' s3] |]; reflexivity.
Qed.

(** Calls in a row are a run of [Request] events; the thread stands still. *)
Lemma run_requests (k : nat) : forall (s : system) bs tb',
  requests k (bucket s) = Some (bs, tb') ->
  run (repeat Request k) s = Some (map Result bs, mkSystem tb' (refiller_ s)).
Proof.
  induction k as [| k IH]; intros s bs tb' H.
  - simpl in H. inversion H; subst. destruct s; reflexivity.
  - cbn [requests] in H. cbn [repeat run step].
    destruct (request (bucket s)) as [[b tb1] |]; [| discriminate].
    destruct (requests k tb1) as [[bs1 tb2] |] eqn:E; [| discriminate].
    inversion H; subst.
    rewrite (IH (mkSystem tb1 (refiller_ s)) bs1 tb') by exact E.
    reflexivity.
Qed.

Section Invariant.

Variable I : system -> Prop.
Variable P : obs -> Prop.

Hypothesis step_keeps : forall e s o s',
  I s -> step e s = Some (o, s') -> I s' /\ P o.

Lemma run_keeps (es : list event) : forall s os s',
  I s -> run es s = Some (os, s') -> I s' /\ Forall P os.
Proof.
  induction es as [| e es IH]; intros s os s' Hi Hr.
  - simpl in Hr. inversion Hr; subst. split; [assumption | constructor].
  - cbn [run] in Hr.
    destruct (step e s) as [[o s1] |] eqn:Es; [| discriminate].
    destruct (run es s1) as [[os1 s2] |] eqn:Er; [| discriminate].
    inversion Hr; subst.
    destruct (step_keeps _ _ _ _ Hi Es) as [Hi1 Ho].
    destruct (IH _ _ _ Hi1 Er) as [Hi2 Hos].
    split; [assumption | now constructor].
Qed.

Hypothesis step_defined : forall e s,
  I s -> exists o s', step e s = Some (o, s').

Lemma run_defined (es : list event) : forall s,
  I s -> exists os s', run es s = Some (os, s') /\ I s' /\ Forall P os.
Proof.
  induction es as [| e es IH]; intros s Hi.
  - exists [], s. repeat split; [assumption | constructor].
  - destruct (step_defined e s Hi) as (o & s1 & Es).
    destruct (step_keeps _ _ _ _ Hi Es) as [Hi1 Ho].
    destruct (IH s1 Hi1) as (os & s2 & Er & Hi2 & Hos).
    exists (o :: os), s2. cbn [run]. rewrite Es, Er.
    repeat split; [assumption | now constructor].
Qed.

End Invariant.

(** One step, by event. *)
Lemma step_request_inv (s : system) (o : obs) (s' : system) :
  step Request s = Some (o, s') ->
  exists b tb', request (bucket s) = Some (b, tb') /\
                o = Result b /\ s' = mkSystem tb' (refiller_ s).
Proof.
  cbn [step]. destruct (request (bucket s)) as [[b tb'] |]; [| discriminate].
  intros H. inversion H; subst. now exists b, tb'.
Qed.

Lemma request_inv (tb : TokenBucket) (b : bool) (tb' : TokenBucket) :
  request tb = Some (b, tb') ->
  (b = false /\ counter_ tb = 0 /\ tb' = tb) \/
  (b = true /\ counter_ tb <> 0 /\ tb' = set_counter_ (counter_ tb - 1) tb).
Proof.
  unfold request, Int.pred.
  destruct (Z.eqb_spec (counter_ tb) 0) as [E | NE]; simpl.
  - intros H. inversion H; subst. now left.
  - destruct (counter_ tb - 1 <? Int.min); [discriminate |].
    intros H. inversion H; subst. now right.
Qed.

Lemma step_refiller (st : cv_status) (s : system) :
  (step (Refiller st) s =
     Some (Refilled (max_counter_ (bucket s)),
           mkSystem (set_counter_ (max_counter_ (bucket s)) (bucket s))
                    (goto LoopTop (refiller_ s)))
   /\ exit_ (bucket s) = false) \/
  (exists l, step (Refiller st) s =
             Some (Silent, mkSystem (bucket s) (goto l (refiller_ s)))).
Proof.
  cbn [step].
  destruct (refill_cases st (bucket s) (refiller_ s)) as [[E He] | [l E]];
    rewrite E; [left | right; exists l]; auto.
Qed.

Lemma step_destroy (s : system) :
  step Destroy s = Some (Silent, mkSystem (set_exit_ true (bucket s)) (refiller_ s)).
Proof. reflexivity. Qed.

(** What a step can be: a refused call, a granted call, a refill, a silent
    step of the thread, or the destructor's block. *)
Lemma step_cases (e : event) (s : system) (o : obs) (s' : system) :
  step e s = Some (o, s') ->
  (e = Request /\ o = Result false /\ counter_ (bucket s) = 0 /\ s' = s) \/
  (e = Request /\ o = Result true /\ counter_ (bucket s) <> 0 /\
   s' = mkSystem (set_counter_ (counter_ (bucket s) - 1) (bucket s))
                 (refiller_ s)) \/
  (exists st, e = Refiller st /\ o = Refilled (max_counter_ (bucket s)) /\
   exit_ (bucket s) = false /\
   s' = mkSystem (set_counter_ (max_counter_ (bucket s)) (bucket s))
                 (goto LoopTop (refiller_ s))) \/
  (exists st l, e = Refiller st /\ o = Silent /\
   s' = mkSystem (bucket s) (goto l (refiller_ s))) \/
  (e = Destroy /\ o = Silent /\
   s' = mkSystem (set_exit_ true (bucket s)) (refiller_ s)).
Proof.
  intros H. destruct e as [| st |].
  - apply step_request_inv in H. destruct H as (b & tb' & Hr & -> & ->).
    apply request_inv in Hr. destruct Hr as [(-> & Hc & ->) | (-> & Hc & ->)].
    + left. destruct s; auto.
    + right; left. auto.
  - destruct (step_refiller st s) as [[E He] | [l E]];
      rewrite E in H; inversion H; subst.
    + right; right; left. exists st. auto.
    + right; right; right; left. exists st, l. auto.
  - rewrite step_destroy in H. inversion H; subst.
    right; right; right; right. auto.
Qed.

Ltac step_inv H :=
  apply step_cases in H;
  destruct H as [(-> & -> & ? & ->)
               | [(-> & -> & ? & ->)
               | [(? & -> & -> & ? & ->)
               | [(? & ? & -> & -> & ->)
               | (-> & -> & ->)]]]];
  cbn [bucket refiller_ set_counter_ set_exit_ goto max_counter_ counter_ exit_
       refillFrequencySeconds at_] in *.

(** A step is defined unless it is a call with the count at the least
    [int]. *)
Lemma step_defined_above_min (e : event) (s : system) :
  Int.min < counter_ (bucket s) -> exists o s', step e s = Some (o, s').
Proof.
  intros H. destruct e as [| st |].
  - cbn [step]. destruct (Z.eq_dec (counter_ (bucket s)) 0) as [E | NE].
    + rewrite request_zero by exact E. eauto.
    + rewrite request_nonzero by assumption. eauto.
  - destruct (step_refiller st s) as [[E _] | [l E]]; rewrite E; eauto.
  - rewrite step_destroy. eauto.
Qed.

(** ** The invariant of the token count *)

Lemma step_tokens_ok (e : event) (s : system) (o : obs) (s' : system) :
  tokens_ok (bucket s) -> step e s = Some (o, s') -> tokens_ok (bucket s').
Proof.
  unfold tokens_ok. intros Hok H. step_inv H; lia.
Qed.

Lemma step_tokens_ok_defined (e : event) (s : system) :
  tokens_ok (bucket s) -> exists o s', step e s = Some (o, s').
Proof.
  unfold tokens_ok. intros Hok. apply step_defined_above_min.
  pose proof Int_min_neg. lia.
Qed.

(** C4. A bucket constructed with capacity [n > 0] starts with [n] tokens;
    [0 <= counter_ <= max_counter_] holds then, every call of [request],
    every step of the refiller and the destructor's block is defined on a
    state where it holds and keeps it, and so it holds after every run of
    the program from construction. *)
Theorem tokens_invariant (n p : Z) (s : system) :
  0 < n -> TokenBucket_new n p = Constructed s ->
  counter_ (bucket s) = n /\
  tokens_ok (bucket s) /\
  (forall e s1, tokens_ok (bucket s1) ->
     exists o s2, step e s1 = Some (o, s2) /\ tokens_ok (bucket s2)) /\
  (forall es, exists os s',
     run es s = Some (os, s') /\ tokens_ok (bucket s')).
Proof.
  intros Hn Hnew. apply TokenBucket_new_inv in Hnew. subst s.
  assert (H0 : tokens_ok (mkTokenBucket n n false))
    by (unfold tokens_ok; simpl; lia).
  split; [reflexivity |]. split; [exact H0 |]. split.
  - intros e s1 Hok.
    destruct (step_tokens_ok_defined e s1 Hok) as (o & s2 & Es).
    exists o, s2. split; [exact Es |].
    exact (step_tokens_ok e s1 o s2 Hok Es).
  - intros es.
    destruct (run_defined (fun s => tokens_ok (bucket s)) (fun _ => True)
                (fun e s o s' Hi Es => conj (step_tokens_ok e s o s' Hi Es) Logic.I)
                step_tokens_ok_defined es
                (mkSystem (mkTokenBucket n n false) (mkThread p LoopTop)) H0)
      as (os & s' & Er & Hok & _).
    now exists os, s'.
Qed.

Lemma tokens_invariant_witness :
  counter_ (mkTokenBucket 3 3 false) = 3 /\
  tokens_ok (mkTokenBucket 3 3 false).
Proof.
  pose proof (tokens_invariant 3 1
                (mkSystem (mkTokenBucket 3 3 false) (mkThread 1 LoopTop))
                ltac:(lia) eq_refl) as H.
  exact (conj (proj1 H) (proj1 (proj2 H))).
Defined.

(** ** What stays fixed *)

Lemma step_frame (e : event) (s : system) (o : obs) (s' : system) :
  step e s = Some (o, s') ->
  max_counter_ (bucket s') = max_counter_ (bucket s) /\
  refillFrequencySeconds (refiller_ s') = refillFrequencySeconds (refiller_ s) /\
  (e <> Destroy -> exit_ (bucket s') = exit_ (bucket s)).
Proof.
  intros H. step_inv H; repeat split; try reflexivity; intros; congruence.
Qed.

(** C8. No call of [request], no step of the refiller and not the
    destructor changes [max_counter_] or the period the thread was started
    with, along any run; [request] and the refiller leave [exit_] as it is
    too, so only [counter_] (and, in the destructor, [exit_]) is written.
    Each operation is defined wherever the count is above the least
    [int]. *)
Theorem fields_fixed (s : system) :
  (forall es os s', run es s = Some (os, s') ->
     max_counter_ (bucket s') = max_counter_ (bucket s) /\
     refillFrequencySeconds (refiller_ s') =
       refillFrequencySeconds (refiller_ s) /\
     (~ In Destroy es -> exit_ (bucket s') = exit_ (bucket s))) /\
  (forall e, Int.min < counter_ (bucket s) ->
     exists o s', step e s = Some (o, s') /\
       max_counter_ (bucket s') = max_counter_ (bucket s) /\
       refillFrequencySeconds (refiller_ s') =
         refillFrequencySeconds (refiller_ s) /\
       (e <> Destroy -> exit_ (bucket s') = exit_ (bucket s))).
Proof.
  split.
  - intros es. revert s.
    induction es as [| e es IH]; intros s os s' Hr.
    + simpl in Hr. inversion Hr; subst. auto.
    + cbn [run] in Hr.
      destruct (step e s) as [[o s1] |] eqn:Es; [| discriminate].
      destruct (run es s1) as [[os1 s2] |] eqn:Er; [| discriminate].
      inversion Hr; subst.
      destruct (step_frame _ _ _ _ Es) as (Hm & Hp & He).
      destruct (IH _ _ _ Er) as (Hm' & Hp' & He').
      split; [congruence |]. split; [congruence |].
      intros Hnd. rewrite He', He.
      * reflexivity.
      * intros ->. apply Hnd. now left.
      * intros Hin. apply Hnd. now right.
  - intros e Hmin.
    destruct (step_defined_above_min e s Hmin) as (o & s' & Es).
    exists o, s'. split; [exact Es |]. exact (step_frame _ _ _ _ Es).
Qed.

Lemma fields_fixed_witness :
  exists o s',
    step Request (mkSystem (mkTokenBucket 3 2 false) (mkThread 1 InWaitFor)) =
      Some (o, s') /\
    max_counter_ (bucket s') = 3 /\
    refillFrequencySeconds (refiller_ s') = 1 /\
    (Request <> Destroy -> exit_ (bucket s') = false).
Proof.
  apply (proj2 (fields_fixed
                  (mkSystem (mkTokenBucket 3 2 false) (mkThread 1 InWaitFor)))
           Request).
  reflexivity.
Defined.

(** ** After the stop flag is set *)

Lemma set_exit_true_same (tb : TokenBucket) :
  exit_ tb = true -> set_exit_ true tb = tb.
Proof. destruct tb; simpl. now intros ->. Qed.

Lemma step_after_exit (e : event) (s : system) (o : obs) (s' : system) :
  exit_ (bucket s) = true -> step e s = Some (o, s') ->
  exit_ (bucket s') = true /\ (forall n, o <> Refilled n).
Proof.
  intros He H. step_inv H; (split; [auto | intros n; congruence]).
Qed.

(** With the flag set, a step of the refiller leaves the object as it is,
    prints nothing, and has the thread returned. *)
Lemma refill_after_exit (st : cv_status) (tb : TokenBucket) (t : thread) :
  exit_ tb = true ->
  refill st tb t = (tb, goto Returned t, None).
Proof.
  intros He. unfold refill, goto. rewrite He.
  destruct t as [p l]; destruct l; reflexivity.
Qed.

(** With the flag set and no call of [request], the object does not change. *)
Lemma run_after_exit_no_calls (es : list event) : forall s os s',
  exit_ (bucket s) = true -> calls es = 0%nat ->
  run es s = Some (os, s') -> bucket s' = bucket s.
Proof.
  induction es as [| e es IH]; intros s os s' He Hc Hr.
  - simpl in Hr. now inversion Hr.
  - cbn [run] in Hr.
    destruct (step e s) as [[o s1] |] eqn:Es; [| discriminate].
    destruct (run es s1) as [[os1 s2] |] eqn:Er; [| discriminate].
    inversion Hr; subst.
    destruct e as [| st |].
    + discriminate Hc.
    + cbn [step] in Es. rewrite refill_after_exit in Es by exact He.
      inversion Es; subst.
      apply IH in Er; [exact Er | exact He | exact Hc].
    + rewrite step_destroy in Es. inversion Es; subst.
      rewrite set_exit_true_same in Er by exact He.
      apply IH in Er; [exact Er | exact He | exact Hc].
Qed.

(** C7. Once [exit_] is set it stays set, whatever runs next; no refill is
    printed from then on; in every state reached, a step of the refiller
    finds the flag, leaves the object untouched and returns; and over a run
    without calls of [request] the object, [counter_] included, is the
    same at the end. *)
Theorem no_refill_after_exit (s : system) (es : list event)
        (os : list obs) (s' : system) :
  exit_ (bucket s) = true -> run es s = Some (os, s') ->
  exit_ (bucket s') = true /\
  (forall n, ~ In (Refilled n) os) /\
  (forall st, step (Refiller st) s' =
              Some (Silent, mkSystem (bucket s') (goto Returned (refiller_ s')))) /\
  (calls es = 0%nat -> bucket s' = bucket s).
Proof.
  intros He Hr.
  destruct (run_keeps (fun s => exit_ (bucket s) = true)
              (fun o => forall n, o <> Refilled n)
              step_after_exit es s os s' He Hr) as [He' Hos].
  split; [exact He' |]. split; [| split].
  - intros n Hin. rewrite Forall_forall in Hos. exact (Hos _ Hin n eq_refl).
  - intros st. cbn [step]. rewrite refill_after_exit by exact He'. reflexivity.
  - intros Hc. exact (run_after_exit_no_calls es s os s' He Hc Hr).
Qed.

Lemma no_refill_after_exit_witness :
  exit_ (mkTokenBucket 3 1 true) = true /\
  (forall n, ~ In (Refilled n) [Silent; Result true; Silent]) /\
  (forall st,
     step (Refiller st) (mkSystem (mkTokenBucket 3 0 true) (mkThread 1 Returned)) =
     Some (Silent, mkSystem (mkTokenBucket 3 0 true) (mkThread 1 Returned))).
Proof.
  pose proof (no_refill_after_exit
                (mkSystem (mkTokenBucket 3 1 true) (mkThread 1 InWaitFor))
                [Refiller timeout; Request; Refiller timeout]
                [Silent; Result true; Silent]
                (mkSystem (mkTokenBucket 3 0 true) (mkThread 1 Returned))
                eq_refl eq_refl) as (_ & H2 & H3 & _).
  split; [reflexivity |]. split; [exact H2 | exact H3].
Defined.

(** ** Capacity zero *)

Lemma step_zero (e : event) (s : system) (o : obs) (s' : system) :
  counter_ (bucket s) = 0 /\ max_counter_ (bucket s) = 0 ->
  step e s = Some (o, s') ->
  (counter_ (bucket s') = 0 /\ max_counter_ (bucket s') = 0) /\
  (o <> Result true /\ forall n, o = Refilled n -> n = 0).
Proof.
  intros [Hc Hm] H.
  step_inv H; repeat split; auto; try congruence; try contradiction;
    intros n E; inversion E; congruence.
Qed.

(** C10. A bucket constructed with capacity 0 is constructed; every run
    from there is defined; every call of [request] in it returns false;
    every refill in it writes 0; and the count is 0 at its end. *)
Theorem zero_capacity (p : Z) :
  exists s,
    TokenBucket_new 0 p = Constructed s /\
    forall es, exists os s',
      run es s = Some (os, s') /\
      counter_ (bucket s') = 0 /\ max_counter_ (bucket s') = 0 /\
      Forall (fun o => o <> Result true /\ forall n, o = Refilled n -> n = 0) os.
Proof.
  eexists. split; [reflexivity |]. intros es.
  destruct (run_defined
              (fun s => counter_ (bucket s) = 0 /\ max_counter_ (bucket s) = 0)
              (fun o => o <> Result true /\ forall n, o = Refilled n -> n = 0)
              step_zero) with (es := es)
      (s := mkSystem (mkTokenBucket 0 0 false) (mkThread p LoopTop))
    as (os & s' & Er & [Hc Hm] & Hos).
  - intros e s [Hc _]. apply step_defined_above_min.
    rewrite Hc. exact Int_min_neg.
  - split; reflexivity.
  - exists os, s'. auto.
Qed.

(** ** Exhaustion and refill *)

(** From [c >= 0] tokens, [c + 1] calls in a row: [c] grants and one
    refusal, and the bucket is empty. *)
Lemma run_burst (s : system) :
  0 <= counter_ (bucket s) ->
  let c := Z.to_nat (counter_ (bucket s)) in
  run (repeat Request (S c)) s =
  Some (repeat (Result true) c ++ [Result false],
        mkSystem (set_counter_ 0 (bucket s)) (refiller_ s)).
Proof.
  intros Hc c.
  rewrite (run_requests (S c) s (repeat true c ++ [false])
             (set_counter_ 0 (bucket s))).
  - rewrite map_app, map_repeat. reflexivity.
  - rewrite requests_drain by exact Hc. fold c.
    replace (Nat.min (S c) c) with c by lia.
    replace (S c - c)%nat with 1%nat by lia.
    do 3 f_equal. lia.
Qed.

(** C6. From [c] tokens, with the refiller waiting and [exit_] clear:
    [c] calls are granted and the next is refused (the bucket is
    exhausted); one refill step then follows; after it exactly
    [max_counter_] calls in a row are granted and the next is refused
    again.  With a full bucket of capacity 3 the results are true, true,
    true, false, then the refill, then true, true, true, false. *)
Theorem refill_restores (s : system) :
  0 < max_counter_ (bucket s) ->
  0 <= counter_ (bucket s) <= max_counter_ (bucket s) ->
  exit_ (bucket s) = false ->
  at_ (refiller_ s) = InWaitFor ->
  let n := Z.to_nat (max_counter_ (bucket s)) in
  let c := Z.to_nat (counter_ (bucket s)) in
  exists s',
    run (repeat Request (S c) ++ Refiller timeout :: repeat Request (S n)) s =
    Some ((repeat (Result true) c ++ [Result false]) ++
          Refilled (max_counter_ (bucket s)) ::
          (repeat (Result true) n ++ [Result false]), s') /\
    counter_ (bucket s') = 0.
Proof.
  intros Hm Hc He Ha n c.
  rewrite run_app. unfold c. rewrite run_burst by lia.
  cbn [run step bucket refiller_].
  rewrite (proj1 (refill_resets (set_counter_ 0 (bucket s)) (refiller_ s)
                    He Ha)).
  cbn [max_counter_ set_counter_ exit_].
  set (s1 := mkSystem _ _).
  assert (Hb : run (repeat Request (S n)) s1 =
               Some (repeat (Result true) n ++ [Result false],
                     mkSystem (set_counter_ 0 (bucket s1)) (refiller_ s1)))
    by (apply (run_burst s1); simpl; lia).
  rewrite Hb. eexists. split; reflexivity.
Qed.

Lemma refill_restores_witness :
  exists s',
    run [Request; Request; Request; Request; Refiller timeout;
         Request; Request; Request; Request]
        (mkSystem (mkTokenBucket 3 3 false) (mkThread 1 InWaitFor)) =
    Some ([Result true; Result true; Result true; Result false; Refilled 3;
           Result true; Result true; Result true; Result false], s') /\
    counter_ (bucket s') = 0.
Proof.
  apply (refill_restores
           (mkSystem (mkTokenBucket 3 3 false) (mkThread 1 InWaitFor)));
    simpl; first [reflexivity | lia].
Defined.

(** ** Negative capacity *)

Lemma calls_cons_request (es : list event) :
  calls (Request :: es) = S (calls es).
Proof. reflexivity. Qed.

(** With a negative capacity and a count at most the capacity, a run is
    defined and grants every call as long as its calls do not take the
    count below the least [int]. *)
Lemma run_negative (es : list event) : forall s : system,
  counter_ (bucket s) <= max_counter_ (bucket s) ->
  max_counter_ (bucket s) < 0 ->
  Int.min <= counter_ (bucket s) - Z.of_nat (calls es) ->
  exists os s',
    run es s = Some (os, s') /\
    Forall (fun o => o <> Result false) os /\
    counter_ (bucket s) - Z.of_nat (calls es) <= counter_ (bucket s')
      <= max_counter_ (bucket s') /\
    max_counter_ (bucket s') = max_counter_ (bucket s).
Proof.
  induction es as [| e es IH]; intros s Hle Hneg Hmin.
  - exists [], s. simpl. repeat split; [constructor | lia | lia].
  - destruct e as [| st |].
    + rewrite calls_cons_request in *.
      cbn [run step]. rewrite request_nonzero by lia.
      destruct (IH (mkSystem (set_counter_ (counter_ (bucket s) - 1) (bucket s))
                             (refiller_ s)))
        as (os & s' & Er & Hos & Hb & Hm); simpl; try lia.
      rewrite Er. exists (Result true :: os), s'.
      simpl in Hb, Hm.
      repeat split; try lia. constructor; [discriminate | exact Hos].
    + change (calls (Refiller st :: es)) with (calls es) in *.
      cbn [run].
      destruct (step_refiller st s) as [[E _] | [l E]]; rewrite E.
      * destruct (IH (mkSystem (set_counter_ (max_counter_ (bucket s)) (bucket s))
                               (goto LoopTop (refiller_ s))))
          as (os & s' & Er & Hos & Hb & Hm); simpl; try lia.
        rewrite Er. exists (Refilled (max_counter_ (bucket s)) :: os), s'.
        simpl in Hb, Hm.
        repeat split; try lia. constructor; [discriminate | exact Hos].
      * destruct (IH (mkSystem (bucket s) (goto l (refiller_ s))))
          as (os & s' & Er & Hos & Hb & Hm); simpl; try lia.
        rewrite Er. exists (Silent :: os), s'.
        simpl in Hb, Hm.
        repeat split; try lia. constructor; [discriminate | exact Hos].
    + change (calls (Destroy :: es)) with (calls es) in *.
      cbn [run]. rewrite step_destroy.
      destruct (IH (mkSystem (set_exit_ true (bucket s)) (refiller_ s)))
        as (os & s' & Er & Hos & Hb & Hm); simpl; try lia.
      rewrite Er. exists (Silent :: os), s'.
      simpl in Hb, Hm.
      repeat split; try lia. constructor; [discriminate | exact Hos].
Qed.

(** The count of a bucket of negative capacity does not decrease without
    bound: constructed with the least [int], already the first call has no
    defined result. *)
Lemma negative_capacity_not_unbounded :
  ~ (forall (size p : Z) (s : system),
        Int.in_range size -> size < 0 ->
        TokenBucket_new size p = Constructed s ->
        forall k : nat, exists tb',
          requests k (bucket s) = Some (repeat true k, tb') /\
          counter_ tb' = size - Z.of_nat k).
Proof.
  intros H.
  assert (R : Int.in_range Int.min)
    by (unfold Int.in_range, Int.min, Int.max; lia).
  destruct (H Int.min 1
              (mkSystem (mkTokenBucket Int.min Int.min false) (mkThread 1 LoopTop))
              R Int_min_neg eq_refl 1%nat) as (tb' & E & _).
  vm_compute in E. discriminate E.
Qed.

(** C9, as the code has it. A bucket constructed with a negative size is
    constructed, and its calls of [request] are granted, each taking the
    count down by one (the test is [counter_ != 0]), for as many calls as
    keep the count at or above the least [int]: [size - Int.min] calls in a
    row, and in any run, refills included, with at most that many calls no
    call is refused and the count stays negative. *)
Theorem negative_capacity (size p : Z) :
  Int.min <= size < 0 ->
  exists s,
    TokenBucket_new size p = Constructed s /\
    (forall k : nat, Z.of_nat k <= size - Int.min ->
       requests k (bucket s) =
       Some (repeat true k, set_counter_ (size - Z.of_nat k) (bucket s))) /\
    (forall es, Z.of_nat (calls es) <= size - Int.min ->
       exists os s',
         run es s = Some (os, s') /\
         Forall (fun o => o <> Result false) os /\
         counter_ (bucket s') < 0).
Proof.
  intros Hs. eexists. split; [reflexivity |]. cbn [bucket]. split.
  - intros k Hk. rewrite requests_all_true by (simpl; lia). reflexivity.
  - intros es Hes.
    destruct (run_negative es
                (mkSystem (mkTokenBucket size size false) (mkThread p LoopTop)))
      as (os & s' & Er & Hos & Hb & Hm); simpl; try lia.
    exists os, s'. simpl in Hm. split; [exact Er |]. split; [exact Hos | lia].
Qed.

Lemma negative_capacity_witness :
  exists s,
    TokenBucket_new (-1) 1 = Constructed s /\
    (forall k : nat, Z.of_nat k <= -1 - Int.min ->
       requests k (bucket s) =
       Some (repeat true k, set_counter_ (-1 - Z.of_nat k) (bucket s))) /\
    (forall es, Z.of_nat (calls es) <= -1 - Int.min ->
       exists os s',
         run es s = Some (os, s') /\
         Forall (fun o => o <> Result false) os /\
         counter_ (bucket s') < 0).
Proof.
  apply (negative_capacity (-1) 1). unfold Int.min. lia.
Defined.

(** ** Accounting of grants and refills *)

Lemma run_cons_inv (e : event) (es : list event) (s : system)
      (os : list obs) (s' : system) :
  run (e :: es) s = Some (os, s') ->
  exists o s1 os1,
    step e s = Some (o, s1) /\ run es s1 = Some (os1, s') /\ os = o :: os1.
Proof.
  cbn [run]. destruct (step e s) as [[o s1] |]; [| discriminate].
  destruct (run es s1) as [[os1 s2] |] eqn:Er; [| discriminate].
  intros H. inversion H; subst. exists o, s1, os1. auto.
Qed.

Lemma grants_cons (o : obs) (os : list obs) :
  grants (o :: os) = ((if is_grant o then 1 else 0) + grants os)%nat.
Proof. unfold grants. simpl. destruct (is_grant o); reflexivity. Qed.

Lemma refills_cons (o : obs) (os : list obs) :
  refills (o :: os) = ((if is_refill o then 1 else 0) + refills os)%nat.
Proof. unfold refills. simpl. destruct (is_refill o); reflexivity. Qed.

Lemma timeouts_cons (e : event) (es : list event) :
  timeouts (e :: es) = ((if is_timeout e then 1 else 0) + timeouts es)%nat.
Proof. unfold timeouts. simpl. destruct (is_timeout e); reflexivity. Qed.

Lemma calls_cons (e : event) (es : list event) :
  calls (e :: es) = ((if is_request e then 1 else 0) + calls es)%nat.
Proof. unfold calls. simpl. destruct (is_request e); reflexivity. Qed.

(** A step of the thread that refills ended a wait by timeout. *)
Lemma step_refilled_inv (st : cv_status) (s : system) (n : Z) (s' : system) :
  step (Refiller st) s = Some (Refilled n, s') ->
  st = timeout /\ at_ (refiller_ s) = InWaitFor /\
  exit_ (bucket s) = false /\ n = max_counter_ (bucket s).
Proof.
  cbn [step]. unfold refill.
  destruct (at_ (refiller_ s)), (exit_ (bucket s)), st;
    intros H; inversion H; auto.
Qed.

(** One step: a grant takes a token, a refill gives at most the capacity. *)
Lemma step_accounting (e : event) (s : system) (o : obs) (s' : system) :
  tokens_ok (bucket s) -> step e s = Some (o, s') ->
  max_counter_ (bucket s') = max_counter_ (bucket s) /\
  Z.of_nat (if is_grant o then 1 else 0) + counter_ (bucket s') <=
  counter_ (bucket s) +
  max_counter_ (bucket s) * Z.of_nat (if is_refill o then 1 else 0).
Proof.
  unfold tokens_ok. intros Hok H.
  step_inv H; cbv [is_grant is_refill]; split; lia.
Qed.

Lemma run_accounting (es : list event) : forall s os s',
  tokens_ok (bucket s) -> run es s = Some (os, s') ->
  tokens_ok (bucket s') /\
  max_counter_ (bucket s') = max_counter_ (bucket s) /\
  Z.of_nat (grants os) + counter_ (bucket s') <=
  counter_ (bucket s) + max_counter_ (bucket s) * Z.of_nat (refills os).
Proof.
  induction es as [| e es IH]; intros s os s' Hok Hr.
  - simpl in Hr. inversion Hr; subst. unfold grants, refills; simpl.
    repeat split; try apply Hok; lia.
  - apply run_cons_inv in Hr. destruct Hr as (o & s1 & os1 & Es & Er & ->).
    pose proof (step_tokens_ok _ _ _ _ Hok Es) as Hok1.
    destruct (step_accounting _ _ _ _ Hok Es) as [Hm Ha].
    destruct (IH _ _ _ Hok1 Er) as (Hok' & Hm' & Ha').
    rewrite grants_cons, refills_cons.
    split; [exact Hok' |]. split; [congruence |].
    rewrite Hm in *. rewrite !Nat2Z.inj_add. nia.
Qed.

Lemma run_tokens_defined (es : list event) (s : system) :
  tokens_ok (bucket s) -> exists os s', run es s = Some (os, s').
Proof.
  intros Hok.
  destruct (run_defined (fun s => tokens_ok (bucket s)) (fun _ => True)
              (fun e s o s' Hi Es => conj (step_tokens_ok e s o s' Hi Es) Logic.I)
              step_tokens_ok_defined es s Hok) as (os & s' & Er & _).
  now exists os, s'.
Qed.

(** Refills come from timeouts, and each prints the capacity. *)
Lemma run_refills (es : list event) : forall s os s',
  run es s = Some (os, s') ->
  (refills os <= timeouts es)%nat /\
  Forall (fun o => forall n, o = Refilled n -> n = max_counter_ (bucket s)) os.
Proof.
  induction es as [| e es IH]; intros s os s' Hr.
  - simpl in Hr. inversion Hr; subst. split; [apply Nat.le_refl | constructor].
  - apply run_cons_inv in Hr. destruct Hr as (o & s1 & os1 & Es & Er & ->).
    destruct (IH _ _ _ Er) as [Hle Hall].
    destruct (step_frame _ _ _ _ Es) as (Hm & _ & _). rewrite Hm in Hall.
    rewrite refills_cons, timeouts_cons. split.
    + destruct o as [b | n |]; simpl; try lia.
      destruct e as [| st |].
      * apply step_request_inv in Es.
        destruct Es as (b & tb' & _ & Ho & _). discriminate Ho.
      * apply step_refilled_inv in Es. destruct Es as (-> & _). simpl. lia.
      * rewrite step_destroy in Es. inversion Es.
    + constructor; [| exact Hall].
      intros n ->. destruct e as [| st |].
      * apply step_request_inv in Es.
        destruct Es as (b & tb' & _ & Ho & _). discriminate Ho.
      * apply step_refilled_inv in Es. tauto.
      * rewrite step_destroy in Es. inversion Es.
Qed.

(** X1. Along every run from a state with [0 <= counter_ <= max_counter_]
    the run is defined, and the calls granted plus the tokens left are at
    most the tokens at the start plus the capacity for each refill; the
    refills are at most the waits ended by timeout. *)
Theorem grants_bounded (es : list event) (s : system) :
  tokens_ok (bucket s) ->
  exists os s',
    run es s = Some (os, s') /\
    Z.of_nat (grants os) + counter_ (bucket s') <=
      counter_ (bucket s) + max_counter_ (bucket s) * Z.of_nat (refills os) /\
    Z.of_nat (grants os) <=
      counter_ (bucket s) + max_counter_ (bucket s) * Z.of_nat (timeouts es).
Proof.
  intros Hok. destruct (run_tokens_defined es s Hok) as (os & s' & Er).
  exists os, s'. split; [exact Er |].
  destruct (run_accounting es s os s' Hok Er) as (Hok' & _ & Ha).
  destruct (run_refills es s os s' Er) as [Hle _].
  unfold tokens_ok in *. split; [exact Ha | nia].
Qed.

Lemma grants_bounded_witness :
  exists os s',
    run [Request; Refiller timeout; Refiller timeout; Request; Request;
         Request; Request]
        (mkSystem (mkTokenBucket 3 1 false) (mkThread 1 LoopTop)) =
      Some (os, s') /\
    Z.of_nat (grants os) + counter_ (bucket s') <=
      1 + 3 * Z.of_nat (refills os) /\
    Z.of_nat (grants os) <= 1 + 3 * 2.
Proof.
  apply (grants_bounded
           [Request; Refiller timeout; Refiller timeout; Request; Request;
            Request; Request]
           (mkSystem (mkTokenBucket 3 1 false) (mkThread 1 LoopTop))).
  unfold tokens_ok; simpl; lia.
Defined.

(** X2. Every refill that a run from state [s] prints shows
    [max_counter_] of [s], and a run has no more refills than waits ended
    by timeout: notifications and spurious wake-ups refill nothing. *)
Theorem refills_from_timeouts (es : list event) (s : system)
        (os : list obs) (s' : system) :
  run es s = Some (os, s') ->
  (refills os <= timeouts es)%nat /\
  (forall n, In (Refilled n) os -> n = max_counter_ (bucket s)).
Proof.
  intros Hr. destruct (run_refills es s os s' Hr) as [Hle Hall].
  split; [exact Hle |].
  intros n Hin. rewrite Forall_forall in Hall. exact (Hall _ Hin n eq_refl).
Qed.

Lemma refills_from_timeouts_witness :
  (refills [Silent; Silent; Refilled 3; Result true] <= 1)%nat /\
  (forall n, In (Refilled n) [Silent; Silent; Refilled 3; Result true] -> n = 3).
Proof.
  exact (refills_from_timeouts
           [Refiller no_timeout; Refiller no_timeout; Refiller timeout; Request]
           (mkSystem (mkTokenBucket 3 0 false) (mkThread 1 LoopTop))
           [Silent; Silent; Refilled 3; Result true]
           (mkSystem (mkTokenBucket 3 2 false) (mkThread 1 LoopTop))
           eq_refl).
Defined.

(** ** Runs without a timeout *)

Lemma refill_no_timeout (tb : TokenBucket) (t : thread) :
  exists l, refill no_timeout tb t = (tb, goto l t, None).
Proof.
  unfold refill, goto. destruct t as [p l]; simpl.
  destruct l, (exit_ tb); eexists; reflexivity.
Qed.

Lemma run_no_timeout (es : list event) : forall (s : system) (c : nat),
  counter_ (bucket s) = Z.of_nat c -> timeouts es = 0%nat ->
  exists os s',
    run es s = Some (os, s') /\
    results os =
      repeat true (Nat.min (calls es) c) ++ repeat false (calls es - c) /\
    refills os = 0%nat /\
    counter_ (bucket s') = Z.of_nat (c - calls es).
Proof.
  induction es as [| e es IH]; intros s c Hc Ht.
  - exists [], s. simpl. rewrite Nat.sub_0_r. auto.
  - rewrite timeouts_cons in Ht. rewrite calls_cons.
    destruct e as [| [|] |]; simpl in Ht; try discriminate Ht;
      cbn [is_request Nat.add run].
    + destruct c as [| c].
      * cbn [step]. rewrite request_zero by exact Hc.
        destruct (IH (mkSystem (bucket s) (refiller_ s)) 0%nat Hc Ht)
          as (os & s' & Er & Hres & Hrf & Hcnt).
        rewrite Er. exists (Result false :: os), s'.
        rewrite Nat.min_0_r, Nat.sub_0_r in Hres.
        split; [reflexivity |]. split; [| split].
        -- change (results (Result false :: os)) with (false :: results os).
           rewrite Hres. reflexivity.
        -- rewrite refills_cons. exact Hrf.
        -- rewrite Hcnt. reflexivity.
      * cbn [step]. rewrite request_positive by lia.
        destruct (IH (mkSystem (set_counter_ (counter_ (bucket s) - 1) (bucket s))
                               (refiller_ s)) c)
          as (os & s' & Er & Hres & Hrf & Hcnt); [simpl; lia | exact Ht |].
        rewrite Er. exists (Result true :: os), s'.
        split; [reflexivity |]. split; [| split].
        -- change (results (Result true :: os)) with (true :: results os).
           rewrite Hres. reflexivity.
        -- rewrite refills_cons. exact Hrf.
        -- rewrite Hcnt. reflexivity.
    + cbn [step]. destruct (refill_no_timeout (bucket s) (refiller_ s)) as [l E].
      rewrite E.
      destruct (IH (mkSystem (bucket s) (goto l (refiller_ s))) c Hc Ht)
        as (os & s' & Er & Hres & Hrf & Hcnt).
      rewrite Er. exists (Silent :: os), s'.
      split; [reflexivity |]. split; [exact Hres |].
      split; [rewrite refills_cons; exact Hrf | exact Hcnt].
    + rewrite step_destroy.
      destruct (IH (mkSystem (set_exit_ true (bucket s)) (refiller_ s)) c Hc Ht)
        as (os & s' & Er & Hres & Hrf & Hcnt).
      rewrite Er. exists (Silent :: os), s'.
      split; [reflexivity |]. split; [exact Hres |].
      split; [rewrite refills_cons; exact Hrf | exact Hcnt].
Qed.

(** X3. In a run in which no wait of the refiller ends by timeout,
    whatever else the thread and the destructor do in between, a bucket
    holding [c >= 0] tokens grants exactly its first [c] calls and refuses
    every call after them; nothing is refilled, and the tokens left are
    [c] less the calls made, or none. *)
Theorem exhaustion_lasts (es : list event) (s : system) :
  0 <= counter_ (bucket s) -> timeouts es = 0%nat ->
  let c := Z.to_nat (counter_ (bucket s)) in
  exists os s',
    run es s = Some (os, s') /\
    results os =
      repeat true (Nat.min (calls es) c) ++ repeat false (calls es - c) /\
    refills os = 0%nat /\
    counter_ (bucket s') = Z.of_nat (c - calls es).
Proof.
  intros Hc Ht c. apply run_no_timeout; [| exact Ht].
  unfold c. rewrite Z2Nat.id by exact Hc. reflexivity.
Qed.

Lemma exhaustion_lasts_witness :
  exists os s',
    run [Request; Refiller no_timeout; Request; Destroy; Request; Request]
        (mkSystem (mkTokenBucket 5 2 false) (mkThread 1 InWaitFor)) =
      Some (os, s') /\
    results os = [true; true; false; false] /\
    refills os = 0%nat /\
    counter_ (bucket s') = 0.
Proof.
  apply (exhaustion_lasts
           [Request; Refiller no_timeout; Request; Destroy; Request; Request]
           (mkSystem (mkTokenBucket 5 2 false) (mkThread 1 InWaitFor)));
    [simpl; lia | reflexivity].
Defined.

(** ** The life of the refiller thread *)





(** ** The destructor *)


(** ** The loop of [main] *)

(** The first ["q"] among the actions. *)
Lemma first_q (acts : list action) :
  In (GetLine "q") acts ->
  exists pre post,
    acts = pre ++ GetLine "q" :: post /\ ~ In (GetLine "q") pre.
Proof.
  induction acts as [| a acts IH]; intros Hin; [contradiction |].
  destruct (action_eq_dec a (GetLine "q")) as [-> | Hne].
  - exists [], acts. split; [reflexivity | intros []].
  - destruct Hin as [E | Hin]; [contradiction |].
    destruct (IH Hin) as (pre & post & -> & Hpre).
    exists (a :: pre), post. split; [reflexivity |].
    intros [E | H]; [now apply Hne | now apply Hpre].
Qed.

Lemma not_q_eqb (req : string) (acts : list action) :
  ~ In (GetLine "q") (GetLine req :: acts) -> String.eqb req "q" = false.
Proof.
  intros H. apply String.eqb_neq. intros ->. apply H. now left.
Qed.

(** A loop that meets no ["q"] is a run of the bucket's events. *)
Lemma main_loop_no_q (acts : list action) : forall s os s',
  ~ In (GetLine "q") acts ->
  run (events_of acts) s = Some (os, s') ->
  exists r,
    main_loop acts s = Some r /\
    sys r = s' /\ quit r = false /\
    map snd (answers r) = results os /\
    map fst (answers r) = lines acts /\
    cout r = written (answers r).
Proof.
  induction acts as [| a acts IH]; intros s os s' Hq Hr.
  - simpl in Hr. inversion Hr; subst.
    eexists. split; [reflexivity |]. simpl. auto.
  - assert (Hq' : ~ In (GetLine "q") acts)
      by (intros Hin; apply Hq; now right).
    cbn [events_of map] in Hr. apply run_cons_inv in Hr.
    destruct Hr as (o & s1 & os1 & Es & Er & ->).
    destruct (IH _ _ _ Hq' Er) as (r & Em & Hs & Hqt & Hsnd & Hfst & Hc).
    destruct a as [req | st].
    + apply step_request_inv in Es. destruct Es as (b & tb' & Erq & -> & ->).
      cbn [main_loop]. rewrite (not_q_eqb req acts Hq), Erq, Em.
      eexists. split; [reflexivity |]. cbn [sys quit answers cout map fst snd].
      repeat split; auto.
      * change (results (Result b :: os1)) with (b :: results os1).
        now rewrite Hsnd.
      * change (lines (GetLine req :: acts)) with (req :: lines acts).
        now rewrite Hfst.
      * cbn [written]. now rewrite Hc.
    + cbn [main_loop]. cbn [step] in Es.
      destruct (refill st (bucket s) (refiller_ s)) as [[tb t] [n |]];
        inversion Es; subst; rewrite Em; exists r; repeat split; auto.
Qed.

(** What follows the first ["q"] plays no part. *)
Lemma main_loop_break (pre post : list action) : forall s,
  ~ In (GetLine "q") pre ->
  main_loop (pre ++ GetLine "q" :: post) s =
  match main_loop pre s with
  | Some r => Some (mkOutcome (cout r) (answers r) (sys r) true)
  | None => None
  end.
Proof.
  induction pre as [| a pre IH]; intros s Hq; [reflexivity |].
  assert (Hq' : ~ In (GetLine "q") pre)
    by (intros Hin; apply Hq; now right).
  cbn [app main_loop]. destruct a as [req | st].
  - rewrite (not_q_eqb req pre Hq).
    destruct (request (bucket s)) as [[result tb] |]; [| reflexivity].
    rewrite IH by exact Hq'.
    destruct (main_loop pre _) as [r |]; reflexivity.
  - destruct (refill st (bucket s) (refiller_ s)) as [[tb t] n].
    apply IH. exact Hq'.
Qed.

Lemma tokens_ok_loop (acts : list action) (s : system) :
  tokens_ok (bucket s) -> ~ In (GetLine "q") acts ->
  exists r os,
    main_loop acts s = Some r /\
    run (events_of acts) s = Some (os, sys r) /\
    quit r = false /\
    map snd (answers r) = results os /\
    map fst (answers r) = lines acts /\
    cout r = written (answers r).
Proof.
  intros Hok Hq.
  destruct (run_tokens_defined (events_of acts) s Hok) as (os & s' & Er).
  destruct (main_loop_no_q acts s os s' Hq Er) as (r & Em & <- & H).
  exists r, os. tauto.
Qed.





(** ** [main] as a whole *)

Lemma granted_results (os : list obs) : granted (results os) = grants os.
Proof.
  induction os as [| o os IH]; [reflexivity |].
  rewrite grants_cons. destruct o as [[|] | n |].
  - change (results (Result true :: os)) with (true :: results os).
    unfold granted in *. rewrite count_occ_cons_eq by reflexivity.
    rewrite IH. reflexivity.
  - change (results (Result false :: os)) with (false :: results os).
    unfold granted in *. rewrite count_occ_cons_neq by discriminate.
    exact IH.
  - exact IH.
  - exact IH.
Qed.

Lemma timeouts_app (a b : list event) :
  timeouts (a ++ b) = (timeouts a + timeouts b)%nat.
Proof. unfold timeouts. now rewrite filter_app, length_app. Qed.

(** The loop from a state with [0 <= counter_ <= max_counter_]: it is
    defined, and it is a run of the events of the actions before the first
    ["q"]. *)
Lemma main_loop_any (acts : list action) (s : system) :
  tokens_ok (bucket s) ->
  exists pre r os,
    main_loop acts s = Some r /\
    run (events_of pre) s = Some (os, sys r) /\
    map snd (answers r) = results os /\
    (timeouts (events_of pre) <= timeouts (events_of acts))%nat /\
    (In (GetLine "q") acts -> quit r = true) /\
    (~ In (GetLine "q") acts -> quit r = false /\ pre = acts).
Proof.
  intros Hok.
  destruct (in_dec action_eq_dec (GetLine "q") acts) as [Hin | Hnin].
  - destruct (first_q acts Hin) as (pre & post & -> & Hq).
    destruct (tokens_ok_loop pre s Hok Hq)
      as (r & os & Em & Er & _ & Hsnd & _ & _).
    exists pre, (mkOutcome (cout r) (answers r) (sys r) true), os.
    rewrite main_loop_break by exact Hq. rewrite Em. cbn [sys answers quit].
    repeat split; auto; try contradiction.
    unfold events_of. rewrite map_app, timeouts_app. lia.
  - destruct (tokens_ok_loop acts s Hok Hnin)
      as (r & os & Em & Er & Hqt & Hsnd & _ & _).
    exists acts, r, os. repeat split; auto; try contradiction.
Qed.

Lemma refill_tokens_ok (st : cv_status) (tb : TokenBucket) (t : thread) :
  tokens_ok tb ->
  tokens_ok (fst (fst (refill st tb t))) /\
  max_counter_ (fst (fst (refill st tb t))) = max_counter_ tb.
Proof.
  unfold tokens_ok. intros Hok.
  destruct (refill_cases st tb t) as [[E _] | [l E]]; rewrite E; simpl; lia.
Qed.

Lemma thread_steps_tokens_ok (sts : list cv_status) : forall s,
  tokens_ok (bucket s) ->
  tokens_ok (bucket (thread_steps sts s)) /\
  max_counter_ (bucket (thread_steps sts s)) = max_counter_ (bucket s).
Proof.
  induction sts as [| st sts IH]; intros s Hok; [now split |].
  cbn [thread_steps].
  destruct (refill_tokens_ok st (bucket s) (refiller_ s) Hok) as [Hok1 Hm1].
  destruct (refill st (bucket s) (refiller_ s)) as [[tb t] n].
  simpl in Hok1, Hm1.
  destruct (IH (mkSystem tb t) Hok1) as [Hok2 Hm2].
  split; [exact Hok2 | simpl in Hm2; congruence].
Qed.

Lemma destructor_state (st : cv_status) (s : system) :
  destructor st s =
  mkSystem (set_exit_ true (bucket s)) (goto Returned (refiller_ s)).
Proof.
  unfold destructor, destroy.
  now rewrite (refill_after_exit st (set_exit_ true (bucket s)) (refiller_ s) eq_refl).
Qed.

(** X8. [main] started with a size [>= 0] is defined for every sequence
    of lines and thread steps, and the requests it answers with
    "succeeded" are at most the size times one more than the waits of the
    refiller that ended by timeout. *)
Theorem main_grants_bounded (size p : Z) (acts : list action)
        (late : list cv_status) (join : cv_status) :
  0 <= size ->
  exists r,
    main size p acts late join = Some r /\
    Z.of_nat (granted (map snd (answers r))) <=
      size * (1 + Z.of_nat (timeouts (events_of acts))).
Proof.
  intros Hs. unfold main. cbn [TokenBucket_new].
  set (s := mkSystem (mkTokenBucket size size false) (mkThread p LoopTop)).
  assert (Hok : tokens_ok (bucket s)) by (unfold tokens_ok; simpl; lia).
  destruct (main_loop_any acts s Hok) as (pre & r & os & Em & Er & Hsnd & Hle & _).
  rewrite Em. eexists. split; [reflexivity |]. cbn [answers].
  rewrite Hsnd, granted_results.
  destruct (run_accounting _ _ _ _ Hok Er) as (Hok' & _ & Ha).
  destruct (run_refills _ _ _ _ Er) as [Hrf _].
  unfold tokens_ok in Hok'. simpl in Ha. nia.
Qed.

Lemma main_grants_bounded_witness :
  exists r,
    main 2 1 [GetLine "a"; GetLine "b"; GetLine "c"; Thread timeout;
              Thread timeout; GetLine "d"; GetLine "q"] [] no_timeout = Some r /\
    Z.of_nat (granted (map snd (answers r))) <=
      2 * (1 + Z.of_nat (timeouts (events_of
         [GetLine "a"; GetLine "b"; GetLine "c"; Thread timeout;
          Thread timeout; GetLine "d"; GetLine "q"]))).
Proof.
  apply (main_grants_bounded 2 1). lia.
Defined.



(** X10. [main] started with a size [>= 0] and given a line ["q"] leaves
    its loop and destroys the bucket: at the end [exit_] is set, the
    refiller thread has returned, whatever it did between the [break] and
    the destructor, and the token count is within [0] and the size. *)
Theorem main_shuts_down (size p : Z) (acts : list action)
        (late : list cv_status) (join : cv_status) :
  0 <= size -> In (GetLine "q") acts ->
  exists r,
    main size p acts late join = Some r /\
    quit r = true /\
    exit_ (bucket (sys r)) = true /\
    at_ (refiller_ (sys r)) = Returned /\
    0 <= counter_ (bucket (sys r)) <= size /\
    max_counter_ (bucket (sys r)) = size.
Proof.
  intros Hs Hin. unfold main. cbn [TokenBucket_new].
  set (s := mkSystem (mkTokenBucket size size false) (mkThread p LoopTop)).
  assert (Hok : tokens_ok (bucket s)) by (unfold tokens_ok; simpl; lia).
  destruct (main_loop_any acts s Hok)
    as (pre & r & os & Em & Er & _ & _ & Hq & _).
  rewrite Em, (Hq Hin). eexists. split; [reflexivity |].
  cbn [quit sys]. rewrite destructor_state. cbn [bucket refiller_].
  destruct (run_accounting _ _ _ _ Hok Er) as (Hok' & Hm & _).
  destruct (thread_steps_tokens_ok late (sys r) Hok') as [Hok2 Hm2].
  unfold tokens_ok in Hok2. simpl in Hm.
  repeat split; simpl; lia.
Qed.

Lemma main_shuts_down_witness :
  exists r,
    main 3 1 [GetLine "q"] [timeout; timeout] no_timeout = Some r /\
    quit r = true /\
    exit_ (bucket (sys r)) = true /\
    at_ (refiller_ (sys r)) = Returned /\
    0 <= counter_ (bucket (sys r)) <= 3 /\
    max_counter_ (bucket (sys r)) = 3.
Proof.
  apply (main_shuts_down 3 1); [lia | now left].
Defined.

(** ** [main] with a negative size *)






